(** * Verification of [ingress/controllers/nginx/pkg/ingress/controller/util.go]

    A shallow embedding of the helpers of the nginx ingress controller
    (hostname matching, namespace/name parsing, the snake-oil certificate
    loader and the task queue that drives the sync loop) together with the
    properties stated about them. *)

From Stdlib Require Import String Ascii List Bool Arith Lia Permutation.
From stdpp Require Import base option list strings gmap.

Local Open Scope string_scope.
Local Open Scope list_scope.

(** ** Go strings

    A Go [string] is an immutable sequence of bytes; Rocq's [string] is a
    list of 8-bit [ascii] characters, so the two coincide.  The functions
    below are those of Go's standard package [strings] that [util.go]
    calls, written after their documented behaviour. *)

Module GoStrings.

(** [len(s)] *)
Definition len (s : string) : nat := String.length s.

(** [s[i:j]] for [i <= j <= len(s)] *)
Definition slice (s : string) (i j : nat) : string := substring i (j - i) s.

(** [strings.HasSuffix]:
    [len(s) >= len(suffix) && s[len(s)-len(suffix):] == suffix] *)
Definition HasSuffix (s suffix : string) : bool :=
  Nat.leb (len suffix) (len s) && String.eqb (slice s (len s - len suffix) (len s)) suffix.

(** [strings.TrimSuffix]: [s] without the trailing [suffix]; [s] itself
    when it does not end in [suffix]. *)
Definition TrimSuffix (s suffix : string) : string :=
  if HasSuffix s suffix then slice s 0 (len s - len suffix) else s.

(** [strings.Split(s, sep)] for a separator of one byte, the only kind
    [util.go] passes (["."] and ["/"]): the substrings between the
    occurrences of [sep], in order.  A string without [sep] (the empty
    string included) yields a slice of length one. *)
Fixpoint Split (s : string) (sep : ascii) : list string :=
  match s with
  | EmptyString => [EmptyString]
  | String c rest =>
      if Ascii.eqb c sep then EmptyString :: Split rest sep
      else match Split rest sep with
           | part :: parts => String c part :: parts
           | [] => [String c EmptyString]
           end
  end.

(** [strings.Count(s, sep)] for a separator of one byte. *)
Fixpoint Count (s : string) (sep : ascii) : nat :=
  match s with
  | EmptyString => 0
  | String c rest => (if Ascii.eqb c sep then 1 else 0) + Count rest sep
  end.

(** [strings.Join(parts, sep)] for a separator of one byte. *)
Fixpoint Join (parts : list string) (sep : ascii) : string :=
  match parts with
  | [] => EmptyString
  | [part] => part
  | part :: rest => part +:+ String sep (Join rest sep)
  end.

End GoStrings.

Import GoStrings.

(** ** Hostname matching *)

(** The body of [for i, patternPart := range patternParts], entered at
    index [i] with [rest] the elements still to visit.  [None] is the
    run-time panic of an index out of range at [hostParts[i]]. *)
Fixpoint matchParts (i : nat) (rest hostParts : list string) : option bool :=
  match rest with
  | [] => Some true
  | patternPart :: rest' =>
      if Nat.eqb i 0 && String.eqb patternPart "*" then matchParts (S i) rest' hostParts
      else match hostParts !! i with
           | None => None
           | Some hostPart =>
               if negb (String.eqb patternPart hostPart) then Some false
               else matchParts (S i) rest' hostParts
           end
  end.

Definition matchHostnames (pattern host : string) : option bool :=
  let host := TrimSuffix host "." in
  let pattern := TrimSuffix pattern "." in
  if Nat.eqb (len pattern) 0 || Nat.eqb (len host) 0 then Some false
  else
    let patternParts := Split pattern "." in
    let hostParts := Split host "." in
    if negb (Nat.eqb (length patternParts) (length hostParts)) then Some false
    else matchParts 0 patternParts hostParts.

(** [isHostValid]: the first matching common name ends the loop. *)
Fixpoint isHostValid (host : string) (cns : list string) : option bool :=
  match cns with
  | [] => Some false
  | cn :: cns' =>
      match matchHostnames cn host with
      | None => None
      | Some true => Some true
      | Some false => isHostValid host cns'
      end
  end.

(** What the loop decides, in the words of the specification: the label
    sequences have the same length and agree at every position, except
    that a first pattern label ["*"] stands for any first host label. *)
Definition labelsMatch (patternParts hostParts : list string) : Prop :=
  length patternParts = length hostParts /\
  forall i pl hl,
    patternParts !! i = Some pl -> hostParts !! i = Some hl ->
    pl = hl \/ (i = 0 /\ pl = "*").

(** ** Namespace/name keys *)

(** The message carried by a Go [error] value. *)
Definition error : Type := string.

(** [fmt.Errorf("invalid format (namespace/name) found in '%v'", input)];
    the verb [%v] prints a string argument as it is. *)
Definition invalidFormat (input : string) : error :=
  "invalid format (namespace/name) found in '" +:+ input +:+ "'".

(** The three results of the Go function as a triple, [None] for a [nil]
    error.  [nsName[0]] and [nsName[1]] are read only when
    [len(nsName) == 2], which is the shape matched here. *)
Definition parseNsName (input : string) : string * string * option error :=
  let nsName := Split input "/" in
  match nsName with
  | [ns; name] => (ns, name, None)
  | _ => ("", "", Some (invalidFormat input))
  end.

(** ** The snake-oil certificate *)

Definition snakeOilPem : string := "/etc/ssl/certs/ssl-cert-snakeoil.pem".
Definition snakeOilKey : string := "/etc/ssl/private/ssl-cert-snakeoil.key".

(** The local disk as [getFakeSSLCert] sees it: the files that can be
    read, with their contents, and the log of the paths read so far
    (oldest first). *)
Record disk : Type := Disk {
  files : gmap string string;
  reads : list string
}.

(** [ioutil.ReadFile]: the contents of the file, or an error. *)
Definition ReadFile (path : string) (d : disk) : (string + error) * disk :=
  (match files d !! path with
   | Some contents => inl contents
   | None => inr ("open " +:+ path +:+ ": no such file or directory")
   end,
   Disk (files d) (reads d ++ [path])).

Definition getFakeSSLCert (d : disk) : (string * string) * disk :=
  match ReadFile snakeOilPem d with
  | (inr _, d1) => (("", ""), d1)
  | (inl cert, d1) =>
      match ReadFile snakeOilKey d1 with
      | (inr _, d2) => (("", ""), d2)
      | (inl key, d2) => ((cert, key), d2)
      end
  end.

(** ** The task queue *)

(** A [chan struct{}] on which nothing is ever sent: it is open or closed. *)
Inductive chan : Type := Open | Closed.

(** What [t.queue.Get()] hands back: an item, or the shutdown flag. *)
Inductive got : Type :=
| Item (key : string)
| Quit.

(** Where one activation of [worker] stands (line numbers of [util.go]). *)
Inductive workerPC : Type :=
| AtGet                      (* 85: key, quit := t.queue.Get() *)
| AtClose                    (* 87: close(t.workerDone) *)
| AtSync (key : string)      (* 91: t.sync(key.(string)); items are string keys *)
| AtRequeue (key : string)   (* 93: t.requeue(key.(string)) *)
| AtForget (key : string)    (* 95: t.queue.Forget(key) *)
| AtDone (key : string)      (* 98: t.queue.Done(key) *)
| Returned                   (* 88: return *)
| Panicked.                  (* close of a closed channel *)

(** Where the caller of [shutdown] stands. *)
Inductive shutdownPC : Type :=
| AtShutDown                 (* 104: t.queue.ShutDown() *)
| AtWait                     (* 105: <-t.workerDone *)
| ShutdownReturned.

Section TaskQueue.

(** [workqueue.RateLimitingInterface] and the key function come from
    imported packages: the queue is any type [Q] with the six methods
    [util.go] calls.  [Get] is [None] in a state where the call blocks.
    [W] is whatever the sync callback reads and writes. *)
Variables (Q Obj W : Type).
Variable keyFunc : Obj -> string + error.
Variable Add : string -> Q -> Q.
Variable Get : Q -> option (got * Q).
Variable Done : string -> Q -> Q.
Variable ShutDown : Q -> Q.
Variable AddRateLimited : string -> Q -> Q.
Variable Forget : string -> Q -> Q.

Record taskQueue : Type := TaskQueue {
  queue : Q;
  workerDone : chan
}.

(** The [sync] field: the callback returns an error or [nil]. *)
Variable sync : string -> W -> option error * W.

(** [NewTaskQueue], given the queue that
    [workqueue.NewRateLimitingQueue(workqueue.DefaultControllerRateLimiter())]
    returns. *)
Definition NewTaskQueue (newQueue : Q) : taskQueue := TaskQueue newQueue Open.

(** [enqueue]: an object without a key is logged and dropped. *)
Definition enqueue (obj : Obj) (t : taskQueue) : taskQueue :=
  match keyFunc obj with
  | inr _ => t
  | inl key => TaskQueue (Add key (queue t)) (workerDone t)
  end.

(** [enqueue] called on each object of [objs] in turn. *)
Definition enqueueAll (objs : list Obj) (t : taskQueue) : taskQueue :=
  fold_left (fun t obj => enqueue obj t) objs t.

Definition requeue (key : string) (t : taskQueue) : taskQueue :=
  TaskQueue (AddRateLimited key (queue t)) (workerDone t).

(** What the threads do to the queue, the channel and the callback. *)
Inductive event : Type :=
| EvGet (r : got)
| EvSync (key : string) (err : option error)
| EvAddRateLimited (key : string)
| EvForget (key : string)
| EvDone (key : string)
| EvClose
| EvClosePanic
| EvShutDown
| EvReceive
| EvEnqueue (obj : Obj)
| EvInterfere.

Record system : Type := System {
  tq : taskQueue;
  world : W;
  wpc : workerPC;
  spc : shutdownPC
}.

(** One atomic step of [worker]; [None] when it is blocked in [Get] or
    has left the function. *)
Definition worker_step (s : system) : option (event * system) :=
  let t := tq s in
  match wpc s with
  | AtGet =>
      match Get (queue t) with
      | None => None
      | Some (Quit, q) =>
          Some (EvGet Quit, System (TaskQueue q (workerDone t)) (world s) AtClose (spc s))
      | Some (Item key, q) =>
          Some (EvGet (Item key),
                System (TaskQueue q (workerDone t)) (world s) (AtSync key) (spc s))
      end
  | AtClose =>
      match workerDone t with
      | Open => Some (EvClose, System (TaskQueue (queue t) Closed) (world s) Returned (spc s))
      | Closed => Some (EvClosePanic, System t (world s) Panicked (spc s))
      end
  | AtSync key =>
      match sync key (world s) with
      | (Some err, w) => Some (EvSync key (Some err), System t w (AtRequeue key) (spc s))
      | (None, w) => Some (EvSync key None, System t w (AtForget key) (spc s))
      end
  | AtRequeue key =>
      Some (EvAddRateLimited key, System (requeue key t) (world s) (AtDone key) (spc s))
  | AtForget key =>
      Some (EvForget key,
            System (TaskQueue (Forget key (queue t)) (workerDone t)) (world s) (AtDone key) (spc s))
  | AtDone key =>
      Some (EvDone key,
            System (TaskQueue (Done key (queue t)) (workerDone t)) (world s) AtGet (spc s))
  | Returned | Panicked => None
  end.

(** One atomic step of [shutdown]; the receive blocks while the channel
    is open. *)
Definition shutdown_step (s : system) : option (event * system) :=
  let t := tq s in
  match spc s with
  | AtShutDown =>
      Some (EvShutDown,
            System (TaskQueue (ShutDown (queue t)) (workerDone t)) (world s) (wpc s) AtWait)
  | AtWait =>
      match workerDone t with
      | Closed => Some (EvReceive, System t (world s) (wpc s) ShutdownReturned)
      | Open => None
      end
  | ShutdownReturned => None
  end.

(** Who moves next: the worker, the caller of [shutdown], another
    goroutine calling [enqueue], or anything else that changes the queue
    and the callback's world (timers of the queue, other controllers). *)
Inductive action : Type :=
| RunWorker
| RunShutdown
| CallEnqueue (obj : Obj)
| Interfere (q : Q) (w : W).

Definition step (a : action) (s : system) : option (event * system) :=
  match a with
  | RunWorker => worker_step s
  | RunShutdown => shutdown_step s
  | CallEnqueue obj => Some (EvEnqueue obj, System (enqueue obj (tq s)) (world s) (wpc s) (spc s))
  | Interfere q w => Some (EvInterfere, System (TaskQueue q (workerDone (tq s))) w (wpc s) (spc s))
  end.

(** A schedule run from [s]: the events in order and the state reached;
    [None] when the schedule asks a blocked or finished thread to move. *)
Fixpoint exec (sched : list action) (s : system) : option (list event * system) :=
  match sched with
  | [] => Some ([], s)
  | a :: sched' =>
      match step a s with
      | None => None
      | Some (e, s1) =>
          match exec sched' s1 with
          | None => None
          | Some (tr, s2) => Some (e :: tr, s2)
          end
      end
  end.

(** The worker has been started on a fresh task queue and [shutdown] has
    been called. *)
Definition started (newQueue : Q) (w : W) : system :=
  System (NewTaskQueue newQueue) w AtGet AtShutDown.

(** The events of a trace that are the worker's own. *)
Definition is_worker_event (e : event) : bool :=
  match e with
  | EvGet _ | EvSync _ _ | EvAddRateLimited _ | EvForget _ | EvDone _
  | EvClose | EvClosePanic => true
  | EvShutDown | EvReceive | EvEnqueue _ | EvInterfere => false
  end.

Definition worker_events (tr : list event) : list event :=
  List.filter is_worker_event tr.

(** A complete turn of the loop, in the words of the specification: get
    a key, sync it, requeue it through the rate limiter after an error and
    forget it otherwise, then mark it done. *)
Inductive iteration : list event -> Prop :=
| iteration_failed (key : string) (err : error) :
    iteration [EvGet (Item key); EvSync key (Some err); EvAddRateLimited key; EvDone key]
| iteration_synced (key : string) :
    iteration [EvGet (Item key); EvSync key None; EvForget key; EvDone key].

(** The worker's events since the last complete turn, by where it stands. *)
Definition unfinished (pc : workerPC) (part : list event) : Prop :=
  match pc with
  | AtGet => part = []
  | AtSync key => part = [EvGet (Item key)]
  | AtRequeue key => exists err, part = [EvGet (Item key); EvSync key (Some err)]
  | AtForget key => part = [EvGet (Item key); EvSync key None]
  | AtDone key =>
      (exists err, part = [EvGet (Item key); EvSync key (Some err); EvAddRateLimited key]) \/
      part = [EvGet (Item key); EvSync key None; EvForget key]
  | AtClose => part = [EvGet Quit]
  | Returned => part = [EvGet Quit; EvClose]
  | Panicked => part = [EvGet Quit; EvClosePanic]
  end.

(** The worker's events so far: complete turns, then an unfinished one. *)
Definition history (tr : list event) (pc : workerPC) : Prop :=
  exists its part,
    Forall iteration its /\ worker_events tr = concat its ++ part /\ unfinished pc part.

(** What ties the channel to the two threads: the channel is closed
    exactly when the worker has returned, the worker never closes it
    twice, and the caller of [shutdown] gets past its receive only on a
    closed channel, after the close and after its own [ShutDown]. *)
Definition handshake (tr : list event) (s : system) : Prop :=
  (workerDone (tq s) = Closed <-> wpc s = Returned) /\
  wpc s <> Panicked /\
  (wpc s = Returned -> In EvClose tr) /\
  (spc s <> AtShutDown -> In EvShutDown tr) /\
  (spc s = ShutdownReturned ->
     workerDone (tq s) = Closed /\
     exists tr1 tr2, tr = tr1 ++ EvReceive :: tr2 /\ In EvClose tr1 /\ In EvShutDown tr1).

End TaskQueue.

Arguments TaskQueue {Q}.
Arguments queue {Q}.
Arguments workerDone {Q}.
Arguments System {Q W}.
Arguments tq {Q W}.
Arguments world {Q W}.
Arguments wpc {Q W}.
Arguments spc {Q W}.
Arguments EvGet {Obj}.
Arguments EvSync {Obj}.
Arguments EvAddRateLimited {Obj}.
Arguments EvForget {Obj}.
Arguments EvDone {Obj}.
Arguments EvClose {Obj}.
Arguments EvClosePanic {Obj}.
Arguments EvShutDown {Obj}.
Arguments EvReceive {Obj}.
Arguments EvEnqueue {Obj}.
Arguments EvInterfere {Obj}.
Arguments RunWorker {Q Obj W}.
Arguments RunShutdown {Q Obj W}.
Arguments CallEnqueue {Q Obj W}.
Arguments Interfere {Q Obj W}.
Arguments started {Q W}.
Arguments NewTaskQueue {Q}.
Arguments is_worker_event {Obj}.
Arguments worker_events {Obj}.
Arguments iteration {Obj}.
Arguments unfinished {Obj}.
Arguments history {Obj}.
Arguments handshake {Q Obj W}.
Arguments enqueueAll {Q Obj}.

(** ** The work queue behind [t.queue] *)

Module SpecQueue.

(** Modelled from the spec: the state of the deduplicating FIFO that
    [workqueue.NewRateLimitingQueue] returns (package [workqueue] is
    imported by [util.go], its code is not part of it).  The fields are
    those of the data model: the keys not yet dequeued in delivery order,
    the keys handed to the sync callback, those among them re-added in the
    meantime, the consecutive failures per key and the one-way shutdown
    flag. *)
Record workQueue : Type := WorkQueue {
  pending : list string;
  processing : gset string;
  dirty : gset string;
  failureCounts : gmap string nat;
  shutdown : bool
}.

(** Modelled from the spec: the add behind [enqueue].  A no-op once the
    queue is shut down; a key being processed is marked dirty; a key that
    is already pending is not added again; any other key joins the back
    of the queue. *)
Definition Add (key : string) (q : workQueue) : workQueue :=
  if shutdown q then q
  else if decide (key ∈ processing q) then
    WorkQueue (pending q) (processing q) ({[key]} ∪ dirty q) (failureCounts q) (shutdown q)
  else if decide (key ∈ pending q) then q
  else WorkQueue (pending q ++ [key]) (processing q) (dirty q) (failureCounts q) (shutdown q).

(** The queue at creation. *)
Definition empty : workQueue := WorkQueue [] ∅ ∅ ∅ false.

End SpecQueue.

(** ** A queue to run the model on *)

Module Demo.

(** A plain FIFO with a shutdown flag: [Get] hands out the oldest key,
    blocks on an empty queue and reports the shutdown once the flag is
    set.  Objects are their own keys, the empty one has none, and the
    sync callback counts its calls and fails on one key. *)
Definition fifo : Type := list string * bool.

Definition Add (key : string) (q : fifo) : fifo := (q.1 ++ [key], q.2).

Definition Get (q : fifo) : option (got * fifo) :=
  match q.1 with
  | key :: rest => Some (Item key, (rest, q.2))
  | [] => if q.2 then Some (Quit, q) else None
  end.

Definition Done (key : string) (q : fifo) : fifo := q.

Definition ShutDown (q : fifo) : fifo := (q.1, true).

Definition AddRateLimited (key : string) (q : fifo) : fifo := Add key q.

Definition Forget (key : string) (q : fifo) : fifo := q.

Definition keyFunc (obj : string) : string + error :=
  if String.eqb obj "" then inr "object has no key" else inl obj.

Definition sync (key : string) (calls : nat) : option error * nat :=
  (if String.eqb key "default/broken" then Some "sync failed" else None, S calls).

Definition run : list (action fifo string nat) -> system fifo nat ->
                 option (list (event string) * system fifo nat) :=
  exec fifo string nat keyFunc Add Get Done ShutDown AddRateLimited Forget sync.

(** One key is enqueued and synced, then [shutdown] is called, the
    worker sees the shutdown and closes the channel, and [shutdown]
    returns. *)
Definition schedule : list (action fifo string nat) :=
  [CallEnqueue "default/web"; RunWorker; RunWorker; RunWorker; RunWorker;
   RunShutdown; RunWorker; RunWorker; RunShutdown].

(** What that schedule does and where it ends. *)
Definition trace : list (event string) :=
  [EvEnqueue "default/web"; EvGet (Item "default/web"); EvSync "default/web" None;
   EvForget "default/web"; EvDone "default/web"; EvShutDown; EvGet Quit;
   EvClose; EvReceive].

Definition final : system fifo nat :=
  System (TaskQueue ([], true) Closed) 1 Returned ShutdownReturned.

End Demo.

(** ** The worker under [run] *)

Section Supervision.

Variables (Q Obj W : Type).
Variable keyFunc : Obj -> string + error.
Variable Add : string -> Q -> Q.
Variable Get : Q -> option (got * Q).
Variable Done : string -> Q -> Q.
Variable ShutDown : Q -> Q.
Variable AddRateLimited : string -> Q -> Q.
Variable Forget : string -> Q -> Q.
Variable sync : string -> W -> option error * W.

(** The task queue together with the stop channel handed to [run]. *)
Record supervised : Type := Supervised {
  inner : system Q W;
  stopCh : chan
}.

(** Under [run] the threads move as before, [run] may invoke the worker
    again, and the stop channel may be closed. *)
Inductive runAction : Type :=
| Inside (a : action Q Obj W)
| Reinvoke
| CloseStop.

(** Modelled from the spec: [wait.Until(t.worker, period, stopCh)], the
    imported function that [run] calls (util.go, line 65).  The worker is
    invoked again once it has returned, until the stop channel is closed;
    the pause of [period] between two invocations is not modelled. *)
Definition run_step (a : runAction) (r : supervised) : option (list (event Obj) * supervised) :=
  match a with
  | Inside a' =>
      match step Q Obj W keyFunc Add Get Done ShutDown AddRateLimited Forget sync a' (inner r) with
      | None => None
      | Some (e, s) => Some ([e], Supervised s (stopCh r))
      end
  | Reinvoke =>
      match stopCh r, wpc (inner r) with
      | Open, Returned =>
          Some ([], Supervised (System (tq (inner r)) (world (inner r)) AtGet (spc (inner r)))
                               Open)
      | _, _ => None
      end
  | CloseStop =>
      match stopCh r with
      | Open => Some ([], Supervised (inner r) Closed)
      | Closed => None
      end
  end.

Fixpoint run_exec (sched : list runAction) (r : supervised)
    : option (list (event Obj) * supervised) :=
  match sched with
  | [] => Some ([], r)
  | a :: sched' =>
      match run_step a r with
      | None => None
      | Some (tr1, r1) =>
          match run_exec sched' r1 with
          | None => None
          | Some (tr2, r2) => Some (tr1 ++ tr2, r2)
          end
      end
  end.

End Supervision.

Arguments Supervised {Q W}.
Arguments inner {Q W}.
Arguments stopCh {Q W}.
Arguments Inside {Q Obj W}.
Arguments Reinvoke {Q Obj W}.
Arguments CloseStop {Q Obj W}.

(** ** What a trace says about keys *)

Section Observations.

Variable Obj : Type.

(** The key an event carries, by the kind of event: handed out by [Get],
    passed to the callback (with any result, with an error, with [nil]),
    requeued through the rate limiter, forgotten, marked done. *)
Definition got_key (e : event Obj) : option string :=
  match e with EvGet (Item key) => Some key | _ => None end.

Definition synced_key (e : event Obj) : option string :=
  match e with EvSync key _ => Some key | _ => None end.

Definition failed_key (e : event Obj) : option string :=
  match e with EvSync key (Some _) => Some key | _ => None end.

Definition succeeded_key (e : event Obj) : option string :=
  match e with EvSync key None => Some key | _ => None end.

Definition requeued_key (e : event Obj) : option string :=
  match e with EvAddRateLimited key => Some key | _ => None end.

Definition forgotten_key (e : event Obj) : option string :=
  match e with EvForget key => Some key | _ => None end.

Definition done_key (e : event Obj) : option string :=
  match e with EvDone key => Some key | _ => None end.

(** The closes of [workerDone] that went through. *)
Definition closing (e : event Obj) : option unit :=
  match e with EvClose => Some tt | _ => None end.

End Observations.

Arguments got_key {Obj}.
Arguments synced_key {Obj}.
Arguments failed_key {Obj}.
Arguments succeeded_key {Obj}.
Arguments requeued_key {Obj}.
Arguments forgotten_key {Obj}.
Arguments done_key {Obj}.
Arguments closing {Obj}.

(** ** The default upstream *)

Section DefaultUpstream.

(** [ingress.Upstream] and its servers are declared in package
    [ingress]; of their fields [util.go] reads [Backends], [Address] and
    [Port], the last two compared with string literals. *)
Variables (Upstream UpstreamServer : Type).
Variable Backends : Upstream -> list UpstreamServer.
Variables (Address Port : UpstreamServer -> string).

(** [ups] is a pointer, [None] for [nil].  A result [None] is a run-time
    panic at [ups.Backends[0]]. *)
Definition isDefaultUpstream (ups : option Upstream) : option bool :=
  match ups with
  | None => Some false
  | Some u =>
      if Nat.eqb (length (Backends u)) 0 then Some false
      else match Backends u !! 0 with
           | None => None
           | Some backend =>
               Some (String.eqb (Address backend) "127.0.0.1" &&
                     String.eqb (Port backend) "8181")
           end
  end.

End DefaultUpstream.

Arguments isDefaultUpstream {Upstream UpstreamServer}.


(** * Properties *)

(** ** Strings *)

Section StringFacts.

Lemma append_empty (s : string) : "" +:+ s = s.
Proof. reflexivity. Qed.

Lemma append_String (c : ascii) (s1 s2 : string) : String c s1 +:+ s2 = String c (s1 +:+ s2).
Proof. reflexivity. Qed.

Lemma append_nil_r (s : string) : s +:+ "" = s.
Proof.
  induction s as [|c s IH]; [reflexivity|].
  now rewrite append_String, IH.
Qed.

Lemma append_assoc (s1 s2 s3 : string) : (s1 +:+ s2) +:+ s3 = s1 +:+ (s2 +:+ s3).
Proof.
  induction s1 as [|c s1 IH]; [reflexivity|].
  now rewrite !append_String, IH.
Qed.

Lemma len_append (s1 s2 : string) : len (s1 +:+ s2) = len s1 + len s2.
Proof.
  induction s1 as [|c s1 IH]; [reflexivity|].
  rewrite append_String. unfold len in *. simpl. now rewrite IH.
Qed.

Lemma len_0 (s : string) : len s = 0 <-> s = "".
Proof. destruct s; simpl; split; intros; (reflexivity || discriminate). Qed.

Lemma substring_0_0 (s : string) : substring 0 0 s = "".
Proof. destruct s; reflexivity. Qed.

Lemma substring_full (s : string) : substring 0 (len s) s = s.
Proof. induction s as [|c s IH]; simpl; [reflexivity | now rewrite IH]. Qed.

Lemma substring_prefix (s1 s2 : string) : substring 0 (len s1) (s1 +:+ s2) = s1.
Proof.
  induction s1 as [|c s1 IH].
  - apply substring_0_0.
  - rewrite append_String. simpl. now rewrite IH.
Qed.

Lemma substring_suffix (s1 s2 : string) : substring (len s1) (len s2) (s1 +:+ s2) = s2.
Proof.
  induction s1 as [|c s1 IH].
  - apply substring_full.
  - rewrite append_String. exact IH.
Qed.

(** Cutting a string at [k] and gluing the two pieces gives it back. *)
Lemma substring_cut (s : string) (k : nat) :
  k <= len s -> s = substring 0 k s +:+ substring k (len s - k) s.
Proof.
  revert k. induction s as [|c s IH]; intros k Hk.
  - destruct k; [reflexivity | simpl in Hk; lia].
  - destruct k as [|k].
    + rewrite substring_0_0, append_empty, Nat.sub_0_r.
      symmetry. apply substring_full.
    + simpl. rewrite append_String. f_equal. apply IH. simpl in Hk. lia.
Qed.

Lemma HasSuffix_true (s suffix : string) :
  HasSuffix s suffix = true <-> exists p, s = p +:+ suffix.
Proof.
  unfold HasSuffix, slice. split.
  - intros H. apply andb_true_iff in H as [Hle Heq].
    apply Nat.leb_le in Hle. apply String.eqb_eq in Heq.
    exists (substring 0 (len s - len suffix) s).
    pose proof (substring_cut s (len s - len suffix)) as Hcut.
    rewrite Heq in Hcut. apply Hcut. lia.
  - intros [p ->]. rewrite len_append.
    apply andb_true_iff. split; [apply Nat.leb_le; lia|].
    apply String.eqb_eq.
    replace (len p + len suffix - len suffix) with (len p) by lia.
    replace (len p + len suffix - len p) with (len suffix) by lia.
    apply substring_suffix.
Qed.

Lemma TrimSuffix_append (p suffix : string) : TrimSuffix (p +:+ suffix) suffix = p.
Proof.
  unfold TrimSuffix.
  assert (HasSuffix (p +:+ suffix) suffix = true) as -> by (apply HasSuffix_true; eauto).
  unfold slice. rewrite len_append.
  replace (len p + len suffix - len suffix - 0) with (len p) by lia.
  apply substring_prefix.
Qed.

Lemma TrimSuffix_none (s suffix : string) : HasSuffix s suffix = false -> TrimSuffix s suffix = s.
Proof. unfold TrimSuffix. now intros ->. Qed.

(** [TrimSuffix] strips one trailing suffix, and only one. *)
Lemma TrimSuffix_spec (s suffix r : string) :
  TrimSuffix s suffix = r <->
  s = r +:+ suffix \/ (r = s /\ forall p, s <> p +:+ suffix).
Proof.
  destruct (HasSuffix s suffix) eqn:E.
  - apply HasSuffix_true in E as [p ->]. rewrite TrimSuffix_append. split.
    + intros ->. now left.
    + intros [H | [_ H]]; [| now destruct (H p)].
      assert (len p = len r) as Hlen.
      { apply (f_equal len) in H. rewrite !len_append in H. lia. }
      apply (f_equal (substring 0 (len p))) in H.
      rewrite substring_prefix in H. rewrite Hlen in H.
      now rewrite substring_prefix in H.
  - rewrite (TrimSuffix_none _ _ E). split.
    + intros ->. right. split; [reflexivity|].
      intros p Hp. assert (HasSuffix r suffix = true) by (apply HasSuffix_true; eauto).
      congruence.
    + intros [H | [H _]]; [| now symmetry].
      assert (HasSuffix s suffix = true) by (apply HasSuffix_true; eauto). congruence.
Qed.

End StringFacts.

(** ** Splitting on a separator *)

Section SplitFacts.

Variable sep : ascii.

Lemma Split_nonempty (s : string) : exists part parts, Split s sep = part :: parts.
Proof.
  induction s as [|c s [part [parts IH]]]; simpl; [eauto|].
  destruct (Ascii.eqb c sep); [eauto|]. rewrite IH. eauto.
Qed.

(** As many parts as separators, plus one. *)
Lemma Split_length (s : string) : length (Split s sep) = S (Count s sep).
Proof.
  induction s as [|c s IH]; simpl; [reflexivity|].
  destruct (Ascii.eqb c sep); simpl; [now rewrite IH|].
  destruct (Split s sep); simpl in *; lia.
Qed.

Lemma Join_cons (part part' : string) (parts : list string) :
  Join (part :: part' :: parts) sep = part +:+ String sep (Join (part' :: parts) sep).
Proof. reflexivity. Qed.

(** Joining the parts with the separator gives the string back. *)
Lemma Join_Split (s : string) : Join (Split s sep) sep = s.
Proof.
  induction s as [|c s IH]; simpl; [reflexivity|].
  destruct (Ascii.eqb c sep) eqn:E.
  - apply Ascii.eqb_eq in E as ->.
    destruct (Split_nonempty s) as [part [parts Hs]].
    rewrite Hs in *. now rewrite Join_cons, append_empty, IH.
  - destruct (Split_nonempty s) as [part [parts Hs]].
    rewrite Hs in *. destruct parts as [|part' parts].
    + simpl in *. now rewrite IH.
    + rewrite Join_cons in *. rewrite append_String. now rewrite IH.
Qed.

(** No part contains the separator. *)
Lemma Split_parts (s : string) : Forall (fun part => Count part sep = 0) (Split s sep).
Proof.
  induction s as [|c s IH]; simpl; [repeat constructor|].
  destruct (Ascii.eqb c sep) eqn:E; [constructor; [reflexivity | exact IH]|].
  destruct (Split s sep) as [|part parts]; simpl.
  - repeat constructor. simpl. now rewrite E.
  - inversion IH; subst. constructor; [simpl; now rewrite E | assumption].
Qed.

Lemma Split_free (s : string) : Count s sep = 0 -> Split s sep = [s].
Proof.
  induction s as [|c s IH]; simpl; [reflexivity|].
  destruct (Ascii.eqb c sep); [discriminate|].
  simpl. intros H. now rewrite (IH H).
Qed.

Lemma Split_append (a b : string) :
  Count a sep = 0 -> Split (a +:+ String sep b) sep = a :: Split b sep.
Proof.
  induction a as [|c a IH].
  - intros _. rewrite append_empty. simpl. now rewrite Ascii.eqb_refl.
  - intros H. simpl in H. destruct (Ascii.eqb c sep) eqn:E; [discriminate|].
    rewrite append_String. simpl. rewrite E. now rewrite (IH H).
Qed.

(** [Split] is the only way to cut a string into separator-free parts. *)
Lemma Split_Join (parts : list string) :
  parts <> [] -> Forall (fun part => Count part sep = 0) parts ->
  Split (Join parts sep) sep = parts.
Proof.
  induction parts as [|part parts IH]; [congruence|].
  intros _ Hfree. inversion Hfree as [|? ? Hpart Hparts]; subst.
  destruct parts as [|part' parts].
  - simpl. now apply Split_free.
  - rewrite Join_cons, (Split_append _ _ Hpart). f_equal. now apply IH.
Qed.

Lemma Count_append (a b : string) : Count (a +:+ b) sep = Count a sep + Count b sep.
Proof.
  induction a as [|c a IH]; [reflexivity|].
  rewrite append_String. simpl. rewrite IH. lia.
Qed.

End SplitFacts.

(** ** The label loop of [matchHostnames] *)

Lemma matchParts_returns (i : nat) (rest hostParts : list string) :
  i + length rest <= length hostParts ->
  matchParts i rest hostParts = Some true \/ matchParts i rest hostParts = Some false.
Proof.
  revert i. induction rest as [|patternPart rest IH]; intros i Hlen; simpl in *; [now left|].
  destruct (Nat.eqb i 0 && String.eqb patternPart "*"); [apply IH; lia|].
  destruct (lookup_lt_is_Some_2 hostParts i) as [hostPart ->]; [lia|].
  destruct (negb (String.eqb patternPart hostPart)); [now right | apply IH; lia].
Qed.

Lemma matchParts_true (i : nat) (rest hostParts : list string) :
  i + length rest <= length hostParts ->
  matchParts i rest hostParts = Some true <->
  forall j pl hl,
    rest !! j = Some pl -> hostParts !! (i + j) = Some hl ->
    pl = hl \/ (i + j = 0 /\ pl = "*").
Proof.
  revert i. induction rest as [|patternPart rest IH]; intros i Hlen; simpl in *.
  - split; [intros _ j pl hl Hj; destruct j; discriminate | reflexivity].
  - destruct (lookup_lt_is_Some_2 hostParts i) as [hostPart Hhost]; [lia|].
    assert (forall j pl hl,
      rest !! j = Some pl -> hostParts !! (S i + j) = Some hl ->
      (pl = hl \/ (S i + j = 0 /\ pl = "*")) <-> (pl = hl \/ (i + S j = 0 /\ pl = "*")))
      as Hshift by (intros; split; intros [?|[? ?]]; (now left) || lia).
    destruct (Nat.eqb i 0 && String.eqb patternPart "*") eqn:Hwild.
    + apply andb_true_iff in Hwild as [Hi Hstar].
      apply Nat.eqb_eq in Hi. apply String.eqb_eq in Hstar. subst i patternPart.
      rewrite IH by lia. split.
      * intros H [|j] pl hl Hpl Hhl; simpl in *.
        -- injection Hpl as <-. now right.
        -- left. destruct (H j pl hl Hpl Hhl) as [?|[? ?]]; [assumption | lia].
      * intros H j pl hl Hpl Hhl. left.
        destruct (H (S j) pl hl Hpl Hhl) as [?|[? ?]]; [assumption | lia].
    + rewrite Hhost. destruct (String.eqb patternPart hostPart) eqn:Heq; simpl.
      * apply String.eqb_eq in Heq. subst hostPart. rewrite IH by lia. split.
        -- intros H [|j] pl hl Hpl Hhl; simpl in *.
           ++ injection Hpl as <-. rewrite Nat.add_0_r in Hhl. left. congruence.
           ++ left. replace (i + S j) with (S i + j) in Hhl by lia.
              destruct (H j pl hl Hpl Hhl) as [?|[? ?]]; [assumption | lia].
        -- intros H j pl hl Hpl Hhl. left.
           replace (S i + j) with (i + S j) in Hhl by lia.
           destruct (H (S j) pl hl Hpl Hhl) as [?|[? ?]]; [assumption | lia].
      * split; [discriminate|]. intros H. exfalso.
        apply String.eqb_neq in Heq.
        destruct (H 0 patternPart hostPart) as [?|[Hi Hstar]];
          [reflexivity | now rewrite Nat.add_0_r | congruence |].
        rewrite Nat.add_0_r in Hi. subst.
        rewrite Nat.eqb_refl, String.eqb_refl in Hwild. discriminate.
Qed.

(** ** [matchHostnames] *)

(** The labels of a string are the one way to write it as dot-free
    pieces joined by dots. *)
Lemma labels_unique (s : string) (labels : list string) :
  labels <> [] -> Forall (fun label => Count label "." = 0) labels ->
  s = Join labels "." -> Split s "." = labels.
Proof. intros Hne Hfree ->. now apply Split_Join. Qed.

Lemma matchHostnames_returns (pattern host : string) :
  matchHostnames pattern host = Some true \/ matchHostnames pattern host = Some false.
Proof.
  unfold matchHostnames.
  destruct (Nat.eqb (len (TrimSuffix pattern ".")) 0 || Nat.eqb (len (TrimSuffix host ".")) 0);
    [now right|].
  destruct (Nat.eqb (length (Split (TrimSuffix pattern ".") "."))
                    (length (Split (TrimSuffix host ".") "."))) eqn:E; simpl; [|now right].
  apply Nat.eqb_eq in E. apply matchParts_returns. simpl. lia.
Qed.

Lemma matchHostnames_true (pattern host : string) :
  matchHostnames pattern host = Some true <->
  TrimSuffix pattern "." <> "" /\ TrimSuffix host "." <> "" /\
  labelsMatch (Split (TrimSuffix pattern ".") ".") (Split (TrimSuffix host ".") ".").
Proof.
  unfold matchHostnames, labelsMatch.
  set (p := TrimSuffix pattern "."). set (h := TrimSuffix host ".").
  destruct (Nat.eqb (len p) 0) eqn:Hp; simpl.
  { apply Nat.eqb_eq, len_0 in Hp. split; [discriminate | tauto]. }
  destruct (Nat.eqb (len h) 0) eqn:Hh; simpl.
  { apply Nat.eqb_eq, len_0 in Hh. split; [discriminate | tauto]. }
  apply Nat.eqb_neq in Hp, Hh. rewrite len_0 in Hp, Hh.
  destruct (Nat.eqb (length (Split p ".")) (length (Split h "."))) eqn:E; simpl.
  - apply Nat.eqb_eq in E. rewrite matchParts_true by (simpl; lia). simpl. tauto.
  - apply Nat.eqb_neq in E. split; [discriminate | tauto].
Qed.

(** A string without dots does not end in one. *)
Lemma HasSuffix_dot_free (s : string) : Count s "." = 0 -> HasSuffix s "." = false.
Proof.
  intros H. destruct (HasSuffix s ".") eqn:E; [|reflexivity].
  apply HasSuffix_true in E as [p ->]. rewrite Count_append in H. simpl in H. lia.
Qed.

(** Claim C1: [matchHostnames] returns true exactly when, after one
    trailing dot is stripped from each argument, both are non-empty, they
    split on dots into equally many labels, and the labels agree position
    by position, a first pattern label ["*"] standing for any first host
    label; it returns false in every other case, in particular for an
    empty pattern or host, for ["example.com"] and for ["a.b.example.com"]
    against ["*.example.com"]. *)
Theorem matchHostnames_characterised :
  (forall pattern host,
      matchHostnames pattern host = Some true <->
      TrimSuffix pattern "." <> "" /\ TrimSuffix host "." <> "" /\
      labelsMatch (Split (TrimSuffix pattern ".") ".") (Split (TrimSuffix host ".") ".")) /\
  (forall pattern host,
      matchHostnames pattern host <> Some true -> matchHostnames pattern host = Some false) /\
  matchHostnames "*.example.com" "foo.example.com" = Some true /\
  matchHostnames "*.example.com" "example.com" = Some false /\
  matchHostnames "*.example.com" "a.b.example.com" = Some false /\
  (forall host, matchHostnames "" host = Some false) /\
  (forall pattern, matchHostnames pattern "" = Some false).
Proof.
  split; [exact matchHostnames_true|].
  split; [intros pattern host H; destruct (matchHostnames_returns pattern host); congruence|].
  repeat split; try reflexivity.
  intros pattern. unfold matchHostnames.
  change (TrimSuffix "" ".") with "". simpl.
  now rewrite orb_true_r.
Qed.

(** Claim C10: the wildcard counts only as the whole leftmost label.  A
    bare ["*"] matches every non-empty host without dots; in a match,
    every pattern label after the first is found unchanged at the same
    place of the host, so a later ["*"] only matches a literal ["*"]; and
    a first label that merely contains a star is compared as it is. *)
Theorem wildcard_only_leftmost_label :
  (forall host, host <> "" -> Count host "." = 0 -> matchHostnames "*" host = Some true) /\
  (forall pattern host i label,
      matchHostnames pattern host = Some true -> 0 < i ->
      Split (TrimSuffix pattern ".") "." !! i = Some label ->
      Split (TrimSuffix host ".") "." !! i = Some label) /\
  matchHostnames "foo.*" "foo.bar" = Some false /\
  matchHostnames "foo.*" "foo.*" = Some true /\
  matchHostnames "f*.example.com" "foo.example.com" = Some false.
Proof.
  split; [|split; [|repeat split; reflexivity]].
  - intros host Hne Hfree. unfold matchHostnames.
    rewrite (TrimSuffix_none host "." (HasSuffix_dot_free host Hfree)).
    change (TrimSuffix "*" ".") with "*".
    rewrite (Split_free "." host Hfree).
    destruct host; [congruence | reflexivity].
  - intros pattern host i label Hmatch Hi Hlabel.
    apply matchHostnames_true in Hmatch as (_ & _ & Hlen & Hall).
    destruct (lookup_lt_is_Some_2 (Split (TrimSuffix host ".") ".") i) as [hl Hhl].
    { rewrite <- Hlen. eapply lookup_lt_Some; eauto. }
    destruct (Hall i label hl Hlabel Hhl) as [-> | [? _]]; [assumption | lia].
Qed.

(** The leading example of claim C10, at a concrete single-label host. *)
Lemma wildcard_only_leftmost_label_witness : matchHostnames "*" "localhost" = Some true.
Proof.
  apply (proj1 wildcard_only_leftmost_label "localhost"); [discriminate | reflexivity].
Defined.

(** ** Trailing dots *)

(** Claim C8 as stated fails: the pattern ["example.com."] matches the
    host ["example.com"], but with one more dot appended it does not,
    since only one trailing dot is stripped. *)
Lemma trailing_dot_not_always_neutral :
  ~ (forall pattern host,
        matchHostnames pattern host = matchHostnames (pattern +:+ ".") host /\
        matchHostnames pattern host = matchHostnames pattern (host +:+ ".")).
Proof.
  intros H. destruct (H "example.com." "example.com") as [H1 _].
  vm_compute in H1. discriminate.
Qed.

(** Claim C8, amended: appending one trailing dot to a pattern that does
    not already end in a dot, or to a host that does not already end in a
    dot, leaves the result of [matchHostnames] unchanged; in particular
    ["example.com."] matches ["example.com"]. *)
Theorem trailing_dot_neutral :
  (forall pattern host,
      HasSuffix pattern "." = false ->
      matchHostnames (pattern +:+ ".") host = matchHostnames pattern host) /\
  (forall pattern host,
      HasSuffix host "." = false ->
      matchHostnames pattern (host +:+ ".") = matchHostnames pattern host) /\
  matchHostnames "example.com." "example.com" = Some true.
Proof.
  split; [|split; [|reflexivity]].
  - intros pattern host H. unfold matchHostnames.
    now rewrite TrimSuffix_append, (TrimSuffix_none pattern "." H).
  - intros pattern host H. unfold matchHostnames.
    now rewrite TrimSuffix_append, (TrimSuffix_none host "." H).
Qed.

(** Both halves of the amended claim C8 at ["*.example.com"] and
    ["foo.example.com"], neither of which ends in a dot. *)
Lemma trailing_dot_neutral_witness :
  matchHostnames ("*.example.com" +:+ ".") "foo.example.com"
    = matchHostnames "*.example.com" "foo.example.com" /\
  matchHostnames "*.example.com" ("foo.example.com" +:+ ".")
    = matchHostnames "*.example.com" "foo.example.com".
Proof.
  split.
  - apply (proj1 trailing_dot_neutral "*.example.com" "foo.example.com"). reflexivity.
  - apply (proj1 (proj2 trailing_dot_neutral) "*.example.com" "foo.example.com"). reflexivity.
Defined.

(** ** [isHostValid] *)

Lemma isHostValid_returns (host : string) (cns : list string) :
  isHostValid host cns = Some true \/ isHostValid host cns = Some false.
Proof.
  induction cns as [|cn cns IH]; simpl; [now right|].
  destruct (matchHostnames_returns cn host) as [-> | ->]; [now left | exact IH].
Qed.

Lemma isHostValid_true (host : string) (cns : list string) :
  isHostValid host cns = Some true <->
  exists cn, In cn cns /\ matchHostnames cn host = Some true.
Proof.
  induction cns as [|cn cns IH]; simpl.
  - split; [discriminate | intros [? [[] _]]].
  - destruct (matchHostnames_returns cn host) as [E | E]; rewrite E.
    + split; [eauto | reflexivity].
    + rewrite IH. split.
      * intros [cn' [Hin Hm]]. eauto.
      * intros [cn' [[<- | Hin] Hm]]; [congruence | eauto].
Qed.

(** Claim C7: [isHostValid] returns true exactly when [matchHostnames]
    succeeds for some pattern of the list, and false otherwise, so that
    reordering the list does not change the result; ["foo.example.com"]
    is valid for the list of ["bar.example.com"] and ["*.example.com"]. *)
Theorem isHostValid_exists :
  (forall host cns,
      isHostValid host cns = Some true <->
      exists cn, In cn cns /\ matchHostnames cn host = Some true) /\
  (forall host cns,
      isHostValid host cns = Some false <->
      forall cn, In cn cns -> matchHostnames cn host = Some false) /\
  (forall host cns cns', Permutation cns cns' -> isHostValid host cns = isHostValid host cns') /\
  isHostValid "foo.example.com" ["bar.example.com"; "*.example.com"] = Some true.
Proof.
  assert (forall host cns,
             isHostValid host cns = Some false <->
             forall cn, In cn cns -> matchHostnames cn host = Some false) as Hfalse.
  { intros host cns. split.
    - intros H cn Hin. destruct (matchHostnames_returns cn host) as [E | E]; [|exact E].
      assert (isHostValid host cns = Some true) by (apply isHostValid_true; eauto).
      congruence.
    - intros H. destruct (isHostValid_returns host cns) as [E | E]; [|exact E].
      apply isHostValid_true in E as [cn [Hin Hm]]. rewrite (H cn Hin) in Hm. discriminate. }
  split; [exact isHostValid_true|]. split; [exact Hfalse|]. split; [|reflexivity].
  intros host cns cns' Hperm.
  destruct (isHostValid_returns host cns) as [E | E]; rewrite E; symmetry.
  - apply isHostValid_true in E as [cn [Hin Hm]]. apply isHostValid_true.
    exists cn. split; [|exact Hm]. eapply Permutation_in; eauto.
  - apply Hfalse. intros cn Hin. apply (proj1 (Hfalse host cns) E).
    eapply Permutation_in; [symmetry|]; eauto.
Qed.

(** ** [parseNsName] *)

(** Claim C6: [parseNsName] returns the two substrings around the slash,
    with a [nil] error, when the input holds exactly one slash, and the
    error naming the input, with two empty strings, when it holds none or
    more than one. *)
Theorem parseNsName_one_separator :
  (forall input,
      Count input "/" = 1 ->
      exists ns name,
        input = ns +:+ "/" +:+ name /\ Count ns "/" = 0 /\ Count name "/" = 0 /\
        parseNsName input = (ns, name, None)) /\
  (forall ns name,
      Count ns "/" = 0 -> Count name "/" = 0 ->
      parseNsName (ns +:+ "/" +:+ name) = (ns, name, None)) /\
  (forall input,
      Count input "/" <> 1 ->
      parseNsName input = ("", "", Some (invalidFormat input))) /\
  parseNsName "default/my-ingress" = ("default", "my-ingress", None) /\
  parseNsName "bad-input"
    = ("", "", Some "invalid format (namespace/name) found in 'bad-input'") /\
  parseNsName "a/b/c" = ("", "", Some "invalid format (namespace/name) found in 'a/b/c'").
Proof.
  split; [|split; [|split; [|repeat split; reflexivity]]].
  - intros input Hone. unfold parseNsName.
    pose proof (Split_length "/" input) as Hlen.
    pose proof (Join_Split "/" input) as Hjoin.
    pose proof (Split_parts "/" input) as Hfree.
    rewrite Hone in Hlen.
    destruct (Split input "/") as [|ns [|name [|? ?]]]; try discriminate.
    exists ns, name. inversion Hfree as [|? ? Hns Hrest]; subst.
    inversion Hrest; subst. split; [reflexivity|]. now repeat split.
  - intros ns name Hns Hname. unfold parseNsName.
    change ("/" +:+ name) with (String "/" name).
    now rewrite (Split_append "/" ns name Hns), (Split_free "/" name Hname).
  - intros input Hnot. unfold parseNsName.
    pose proof (Split_length "/" input) as Hlen.
    destruct (Split input "/") as [|ns [|name [|? ?]]]; try reflexivity.
    simpl in Hlen. lia.
Qed.

(** ** [getFakeSSLCert] *)

(** Claim C9: [getFakeSSLCert] reads the certificate and then the key; it
    returns the two contents when both reads succeed and two empty strings
    when either fails (the key is not read after a failed certificate), so
    that a populated result always stems from two successful reads.  The
    function is total and has no error result. *)
Theorem getFakeSSLCert_all_or_nothing (d : disk) :
  (forall cert key,
      files d !! snakeOilPem = Some cert -> files d !! snakeOilKey = Some key ->
      getFakeSSLCert d = ((cert, key), Disk (files d) (reads d ++ [snakeOilPem; snakeOilKey]))) /\
  (files d !! snakeOilPem = None ->
      getFakeSSLCert d = (("", ""), Disk (files d) (reads d ++ [snakeOilPem]))) /\
  (forall cert,
      files d !! snakeOilPem = Some cert -> files d !! snakeOilKey = None ->
      getFakeSSLCert d = (("", ""), Disk (files d) (reads d ++ [snakeOilPem; snakeOilKey]))) /\
  (fst (getFakeSSLCert d) <> ("", "") ->
      files d !! snakeOilPem = Some (fst (fst (getFakeSSLCert d))) /\
      files d !! snakeOilKey = Some (snd (fst (getFakeSSLCert d)))).
Proof.
  unfold getFakeSSLCert, ReadFile. simpl.
  destruct (files d !! snakeOilPem) as [cert|] eqn:Hpem;
    destruct (files d !! snakeOilKey) as [key|] eqn:Hkey; simpl;
    rewrite <- ?app_assoc; simpl;
    repeat split; intros; simplify_eq; try reflexivity; try congruence.
Qed.

(** Claim C9 on a disk holding both files, and on one without the key. *)
Lemma getFakeSSLCert_all_or_nothing_witness :
  fst (getFakeSSLCert (Disk {[snakeOilPem := "CERT"; snakeOilKey := "KEY"]} [])) = ("CERT", "KEY") /\
  fst (getFakeSSLCert (Disk {[snakeOilPem := "CERT"]} [])) = ("", "").
Proof.
  split.
  - rewrite (proj1 (getFakeSSLCert_all_or_nothing
                      (Disk {[snakeOilPem := "CERT"; snakeOilKey := "KEY"]} [])) "CERT" "KEY");
      [reflexivity | vm_compute; reflexivity | vm_compute; reflexivity].
  - rewrite (proj1 (proj2 (proj2 (getFakeSSLCert_all_or_nothing
                      (Disk {[snakeOilPem := "CERT"]} [])))) "CERT");
      [reflexivity | vm_compute; reflexivity | vm_compute; reflexivity].
Defined.

(** ** The worker loop and the shutdown handshake *)

Section TaskQueueFacts.

Variables (Q Obj W : Type).
Variable keyFunc : Obj -> string + error.
Variable Add : string -> Q -> Q.
Variable Get : Q -> option (got * Q).
Variable Done : string -> Q -> Q.
Variable ShutDown : Q -> Q.
Variable AddRateLimited : string -> Q -> Q.
Variable Forget : string -> Q -> Q.
Variable sync : string -> W -> option error * W.

Local Abbreviation step_ := (step Q Obj W keyFunc Add Get Done ShutDown AddRateLimited Forget sync).
Local Abbreviation exec_ := (exec Q Obj W keyFunc Add Get Done ShutDown AddRateLimited Forget sync).

Lemma worker_events_snoc (tr : list (event Obj)) (e : event Obj) :
  worker_events (tr ++ [e]) = worker_events tr ++ (if is_worker_event e then [e] else []).
Proof.
  unfold worker_events. rewrite List.filter_app. simpl.
  now destruct (is_worker_event e).
Qed.

(** A property of the trace and the state that every step keeps holds
    along every schedule. *)
Lemma exec_invariant (P : list (event Obj) -> system Q W -> Prop) :
  (forall tr s a e s', P tr s -> step_ a s = Some (e, s') -> P (tr ++ [e]) s') ->
  forall sched tr0 s tr s',
    P tr0 s -> exec_ sched s = Some (tr, s') -> P (tr0 ++ tr) s'.
Proof.
  intros Hstep. induction sched as [|a sched IH]; intros tr0 s tr s' HP Hexec; simpl in Hexec.
  - injection Hexec as <- <-. now rewrite app_nil_r.
  - destruct (step_ a s) as [[e s1]|] eqn:Ha; [|discriminate].
    destruct (exec_ sched s1) as [[tr1 s2]|] eqn:Hrest; [|discriminate].
    injection Hexec as <- <-.
    replace (tr0 ++ e :: tr1) with ((tr0 ++ [e]) ++ tr1) by now rewrite <- app_assoc.
    eapply IH; eauto.
Qed.

(** Steps of the other threads leave the worker where it is. *)
Lemma step_other (a : action Q Obj W) (s s' : system Q W) (e : event Obj) :
  a <> RunWorker -> step_ a s = Some (e, s') ->
  wpc s' = wpc s /\ workerDone (tq s') = workerDone (tq s) /\ is_worker_event e = false.
Proof.
  intros Ha Hstep. destruct a as [| |obj|q w]; simpl in Hstep; [congruence| | |].
  - unfold shutdown_step in Hstep. destruct (spc s).
    + injection Hstep as <- <-. now repeat split.
    + destruct (workerDone (tq s)) eqn:E; [discriminate|].
      injection Hstep as <- <-. now repeat split.
    + discriminate.
  - injection Hstep as <- <-. unfold enqueue. simpl.
    destruct (keyFunc obj); now repeat split.
  - injection Hstep as <- <-. now repeat split.
Qed.

(** The unfinished turn grows by the worker event [ev]. *)
Ltac grow its part ev Htr :=
  exists its, (part ++ [ev]);
  split; [assumption|];
  split; [rewrite worker_events_snoc, Htr, <- app_assoc; reflexivity|].

Lemma history_step (tr : list (event Obj)) (s s' : system Q W) (a : action Q Obj W) (e : event Obj) :
  history tr (wpc s) -> step_ a s = Some (e, s') -> history (tr ++ [e]) (wpc s').
Proof.
  intros (its & part & Hits & Htr & Hpart) Hstep.
  assert (a = RunWorker \/ a <> RunWorker) as [-> | Hother]
    by (destruct a; (now left) || (now right)).
  2: { destruct (step_other a s s' e Hother Hstep) as (-> & _ & He).
       exists its, part. rewrite worker_events_snoc, He, app_nil_r. auto. }
  simpl in Hstep. unfold worker_step in Hstep.
  destruct (wpc s) as [| |key|key|key|key| |] eqn:Hpc; simpl in Hpart.
  - destruct (Get (queue (tq s))) as [[[key|] q]|]; [| |discriminate];
      injection Hstep as <- <-; simpl.
    + grow its part (@EvGet Obj (Item key)) Htr. now subst part.
    + grow its part (@EvGet Obj Quit) Htr. now subst part.
  - destruct (workerDone (tq s)); injection Hstep as <- <-; simpl.
    + grow its part (@EvClose Obj) Htr. now subst part.
    + grow its part (@EvClosePanic Obj) Htr. now subst part.
  - destruct (sync key (world s)) as [[err|] w]; injection Hstep as <- <-; simpl.
    + grow its part (@EvSync Obj key (Some err)) Htr. subst part. now exists err.
    + grow its part (@EvSync Obj key None) Htr. now subst part.
  - injection Hstep as <- <-; simpl.
    grow its part (@EvAddRateLimited Obj key) Htr. destruct Hpart as [err ->]. left. now exists err.
  - injection Hstep as <- <-; simpl.
    grow its part (@EvForget Obj key) Htr. subst part. now right.
  - injection Hstep as <- <-; simpl.
    exists (its ++ [part ++ [EvDone key]]), [].
    rewrite worker_events_snoc, Htr, concat_app. simpl. rewrite !app_nil_r, <- app_assoc.
    split; [|split; reflexivity].
    apply Forall_app. split; [assumption|]. constructor; [|constructor].
    destruct Hpart as [[err ->] | ->]; constructor.
  - discriminate.
  - discriminate.
Qed.

Lemma history_exec (sched : list (action Q Obj W)) (s s' : system Q W) (tr : list (event Obj)) :
  wpc s = AtGet -> exec_ sched s = Some (tr, s') -> history tr (wpc s').
Proof.
  intros Hpc Hexec.
  apply (exec_invariant (fun tr s => history tr (wpc s))
           (fun tr s a e s' => history_step tr s s' a e) sched [] s tr s'); [|exact Hexec].
  rewrite Hpc. exists [], []. repeat split. constructor.
Qed.

Lemma handshake_keep (tr : list (event Obj)) (s s' : system Q W) (e : event Obj) :
  handshake tr s ->
  spc s' = spc s -> workerDone (tq s') = workerDone (tq s) ->
  (wpc s' = Returned <-> wpc s = Returned) -> wpc s' <> Panicked ->
  handshake (tr ++ [e]) s'.
Proof.
  intros (H1 & H2 & H3 & H4 & H5) Hspc Hdone Hret Hpanic.
  unfold handshake. rewrite Hspc, Hdone, Hret.
  split; [assumption|]. split; [assumption|]. split; [|split].
  - intros H. apply in_or_app. left. tauto.
  - intros H. apply in_or_app. left. tauto.
  - intros H. destruct (H5 H) as (Hclosed & tr1 & tr2 & -> & Hc & Hs).
    split; [assumption|].
    exists tr1, (tr2 ++ [e]). rewrite <- app_assoc. simpl. auto.
Qed.

Lemma handshake_step (tr : list (event Obj)) (s : system Q W) (a : action Q Obj W)
    (e : event Obj) (s' : system Q W) :
  handshake tr s -> step_ a s = Some (e, s') -> handshake (tr ++ [e]) s'.
Proof.
  intros Hinv Hstep. pose proof Hinv as (H1 & H2 & H3 & H4 & H5).
  destruct a as [| |obj|q w]; simpl in Hstep.
  - unfold worker_step in Hstep.
    destruct (wpc s) as [| |key|key|key|key| |] eqn:Hpc.
    + destruct (Get (queue (tq s))) as [[[key|] q]|]; [| |discriminate];
        injection Hstep as <- <-;
        apply (handshake_keep tr s); simpl; rewrite ?Hpc; try easy.
    + destruct (workerDone (tq s)) eqn:Hdone.
      * injection Hstep as <- <-. unfold handshake. simpl.
        split; [easy|]. split; [easy|]. split; [|split].
        -- intros _. apply in_or_app. right. now left.
        -- intros H. apply in_or_app. left. tauto.
        -- intros H. destruct (H5 H) as (Hclosed & _). congruence.
      * assert (AtClose = Returned) by tauto. discriminate.
    + destruct (sync key (world s)) as [[err|] w]; injection Hstep as <- <-;
        apply (handshake_keep tr s); simpl; rewrite ?Hpc; easy.
    + injection Hstep as <- <-. apply (handshake_keep tr s); simpl; rewrite ?Hpc; easy.
    + injection Hstep as <- <-. apply (handshake_keep tr s); simpl; rewrite ?Hpc; easy.
    + injection Hstep as <- <-. apply (handshake_keep tr s); simpl; rewrite ?Hpc; easy.
    + discriminate.
    + discriminate.
  - unfold shutdown_step in Hstep. destruct (spc s) eqn:Hspc.
    + injection Hstep as <- <-. unfold handshake. simpl.
      split; [assumption|]. split; [assumption|]. split; [|split].
      * intros H. apply in_or_app. left. tauto.
      * intros _. apply in_or_app. right. now left.
      * discriminate.
    + destruct (workerDone (tq s)) eqn:Hdone; [discriminate|].
      injection Hstep as <- <-. unfold handshake. simpl.
      split; [now rewrite Hdone|]. split; [assumption|]. split; [|split].
      * intros H. apply in_or_app. left. tauto.
      * intros _. apply in_or_app. left. apply H4. discriminate.
      * intros _. split; [assumption|].
        exists tr, []. split; [reflexivity|]. split; [tauto|].
        apply H4. discriminate.
    + discriminate.
  - injection Hstep as <- <-. apply (handshake_keep tr s); simpl; try easy.
    unfold enqueue. now destruct (keyFunc obj).
  - injection Hstep as <- <-. now apply (handshake_keep tr s).
Qed.

Lemma handshake_started (newQueue : Q) (w : W) :
  handshake (Obj := Obj) [] (started newQueue w).
Proof. unfold handshake, started. simpl. repeat split; easy. Qed.


(** Claim C3: a turn of the worker loop whose sync fails requeues the key
    through [AddRateLimited], marks it done and is back at [Get]; a turn
    whose sync succeeds calls [Forget] instead; the worker closes
    [workerDone] and returns when [Get] reports the shutdown.  Under every
    schedule the worker's events are complete turns of these two shapes
    followed by an unfinished one, so an error of the callback never ends
    the loop, and the worker has returned only after a [Get] that reported
    the shutdown. *)
Theorem worker_loop_turns :
  (forall s key q err w,
      wpc s = AtGet -> Get (queue (tq s)) = Some (Item key, q) ->
      sync key (world s) = (Some err, w) ->
      exec_ [RunWorker; RunWorker; RunWorker; RunWorker] s =
        Some ([EvGet (Item key); EvSync key (Some err); EvAddRateLimited key; EvDone key],
              System (TaskQueue (Done key (AddRateLimited key q)) (workerDone (tq s)))
                     w AtGet (spc s))) /\
  (forall s key q w,
      wpc s = AtGet -> Get (queue (tq s)) = Some (Item key, q) ->
      sync key (world s) = (None, w) ->
      exec_ [RunWorker; RunWorker; RunWorker; RunWorker] s =
        Some ([EvGet (Item key); EvSync key None; EvForget key; EvDone key],
              System (TaskQueue (Done key (Forget key q)) (workerDone (tq s)))
                     w AtGet (spc s))) /\
  (forall s q,
      wpc s = AtGet -> Get (queue (tq s)) = Some (Quit, q) -> workerDone (tq s) = Open ->
      exec_ [RunWorker; RunWorker] s =
        Some ([EvGet Quit; EvClose], System (TaskQueue q Closed) (world s) Returned (spc s))) /\
  (forall sched s tr s',
      wpc s = AtGet -> exec_ sched s = Some (tr, s') -> history tr (wpc s')) /\
  (forall sched s tr s',
      wpc s = AtGet -> exec_ sched s = Some (tr, s') -> wpc s' = Returned ->
      exists its, Forall iteration its /\ worker_events tr = concat its ++ [EvGet Quit; EvClose]).
Proof.
  split; [|split; [|split; [|split]]].
  - intros s key q err w Hpc Hget Hsync. simpl. unfold worker_step. simpl.
    rewrite Hpc, Hget. simpl. now rewrite Hsync.
  - intros s key q w Hpc Hget Hsync. simpl. unfold worker_step. simpl.
    rewrite Hpc, Hget. simpl. now rewrite Hsync.
  - intros s q Hpc Hget Hopen. simpl. unfold worker_step. simpl.
    rewrite Hpc, Hget. simpl. now rewrite Hopen.
  - intros sched s tr s'. apply history_exec.
  - intros sched s tr s' Hpc Hexec Hret.
    destruct (history_exec sched s s' tr Hpc Hexec) as (its & part & Hits & Htr & Hpart).
    rewrite Hret in Hpart. simpl in Hpart. subst part. eauto.
Qed.


End TaskQueueFacts.

(** The first part of claim C3 on the demonstration queue: the failing key
    is requeued and the worker is back at [Get]. *)
Lemma worker_loop_turns_witness :
  Demo.run [RunWorker; RunWorker; RunWorker; RunWorker]
    (System (TaskQueue (["default/broken"], false) Open) 0 AtGet AtShutDown) =
  Some ([EvGet (Item "default/broken"); EvSync "default/broken" (Some "sync failed");
         EvAddRateLimited "default/broken"; EvDone "default/broken"],
        System (TaskQueue (["default/broken"], false) Open) 1 AtGet AtShutDown).
Proof.
  apply (proj1 (worker_loop_turns Demo.fifo string nat Demo.keyFunc Demo.Add Demo.Get
                  Demo.Done Demo.ShutDown Demo.AddRateLimited Demo.Forget Demo.sync)
               (System (TaskQueue (["default/broken"], false) Open) 0 AtGet AtShutDown)
               "default/broken" ([], false) "sync failed" 1); reflexivity.
Defined.

(** Schedules that never invoke the worker again run under [run] as
    they do without it. *)
Lemma run_exec_Inside {Q Obj W : Type} keyFunc Add Get Done ShutDown AddRateLimited Forget sync
    (sched : list (action Q Obj W)) (s : system Q W) (stop : chan) :
  run_exec Q Obj W keyFunc Add Get Done ShutDown AddRateLimited Forget sync
    (map Inside sched) (Supervised s stop) =
  match exec Q Obj W keyFunc Add Get Done ShutDown AddRateLimited Forget sync sched s with
  | Some (tr, s') => Some (tr, Supervised s' stop)
  | None => None
  end.
Proof.
  revert s. induction sched as [|a sched IH]; intros s; simpl; [reflexivity|].
  destruct (step Q Obj W keyFunc Add Get Done ShutDown AddRateLimited Forget sync a s)
    as [[e s1]|]; [|reflexivity].
  rewrite IH.
  now destruct (exec Q Obj W keyFunc Add Get Done ShutDown AddRateLimited Forget sync sched s1)
    as [[tr s2]|].
Qed.



(** ** Deduplication on [enqueue] *)

Section Dedup.

Import SpecQueue.

Variable Obj : Type.
Variable keyFunc : Obj -> string + error.

Lemma Add_NoDup (key : string) (q : workQueue) :
  NoDup (pending q) -> NoDup (pending (Add key q)).
Proof.
  intros Hnodup. unfold Add. destruct (shutdown q); [assumption|].
  destruct (decide (key ∈ processing q)); [assumption|].
  destruct (decide (key ∈ pending q)) as [Hin | Hout]; [assumption|].
  simpl. apply NoDup_app. split; [assumption|]. split; [|apply NoDup_singleton].
  intros k Hk Hk'. apply list_elem_of_singleton in Hk'. now subst.
Qed.

Lemma Add_shutdown (key : string) (q : workQueue) : shutdown (Add key q) = shutdown q.
Proof.
  unfold Add. destruct (shutdown q) eqn:E; [exact E|].
  destruct (decide (key ∈ processing q)); [reflexivity|].
  destruct (decide (key ∈ pending q)); [exact E | reflexivity].
Qed.

Lemma Add_processing (key : string) (q : workQueue) : processing (Add key q) = processing q.
Proof.
  unfold Add. destruct (shutdown q); [reflexivity|].
  destruct (decide (key ∈ processing q)); [reflexivity|].
  now destruct (decide (key ∈ pending q)).
Qed.

Lemma Add_keeps (key key' : string) (q : workQueue) :
  key' ∈ pending q -> key' ∈ pending (Add key q).
Proof.
  intros Hin. unfold Add. destruct (shutdown q); [assumption|].
  destruct (decide (key ∈ processing q)); [assumption|].
  destruct (decide (key ∈ pending q)); [assumption|].
  simpl. apply elem_of_app. now left.
Qed.

Lemma Add_pending (key : string) (q : workQueue) :
  shutdown q = false -> key ∉ processing q -> key ∈ pending (Add key q).
Proof.
  intros Hshut Hproc. unfold Add. rewrite Hshut.
  destruct (decide (key ∈ processing q)); [contradiction|].
  destruct (decide (key ∈ pending q)); [assumption|].
  simpl. apply elem_of_app. right. now apply list_elem_of_singleton.
Qed.

Lemma enqueue_NoDup (obj : Obj) (t : taskQueue workQueue) :
  NoDup (pending (queue t)) -> NoDup (pending (queue (enqueue _ _ keyFunc Add obj t))).
Proof.
  intros H. unfold enqueue. destruct (keyFunc obj); simpl; [now apply Add_NoDup | assumption].
Qed.

Lemma enqueue_keeps (obj : Obj) (key : string) (t : taskQueue workQueue) :
  key ∈ pending (queue t) -> key ∈ pending (queue (enqueue _ _ keyFunc Add obj t)).
Proof.
  unfold enqueue. destruct (keyFunc obj); simpl; [apply Add_keeps | trivial].
Qed.

Lemma enqueueAll_NoDup (objs : list Obj) (t : taskQueue workQueue) :
  NoDup (pending (queue t)) -> NoDup (pending (queue (enqueueAll keyFunc Add objs t))).
Proof.
  revert t. induction objs as [|obj objs IH]; intros t H; simpl; [assumption|].
  apply IH. now apply enqueue_NoDup.
Qed.

Lemma enqueueAll_keeps (objs : list Obj) (key : string) (t : taskQueue workQueue) :
  key ∈ pending (queue t) -> key ∈ pending (queue (enqueueAll keyFunc Add objs t)).
Proof.
  revert t. induction objs as [|obj objs IH]; intros t H; simpl; [assumption|].
  apply IH. now apply enqueue_keeps.
Qed.

(** Claim C5, amended: on a queue that holds no key twice, enqueuing one
    or more objects that all have the key [key] leaves exactly one
    pending occurrence of [key] if the queue has not been shut down and
    [key] is not being processed; and whatever is enqueued, no key is
    ever pending twice. *)
Theorem enqueue_deduplicates (objs : list Obj) (key : string) (t : taskQueue workQueue) :
  NoDup (pending (queue t)) ->
  (shutdown (queue t) = false ->
   key ∉ processing (queue t) ->
   objs <> [] ->
   Forall (fun obj => keyFunc obj = inl key) objs ->
   count_occ String.string_dec (pending (queue (enqueueAll keyFunc Add objs t))) key = 1) /\
  count_occ String.string_dec (pending (queue (enqueueAll keyFunc Add objs t))) key <= 1.
Proof.
  intros Hnodup.
  pose proof (enqueueAll_NoDup objs t Hnodup) as Hnodup'.
  apply NoDup_ListNoDup in Hnodup'. split.
  - intros Hshut Hproc Hne Hkeys.
    apply (proj1 (NoDup_count_occ' String.string_dec _) Hnodup'). apply list_elem_of_In.
    destruct objs as [|obj objs]; [congruence|]. simpl.
    apply enqueueAll_keeps. inversion Hkeys as [|? ? Hobj _]; subst.
    unfold enqueue. rewrite Hobj. simpl. now apply Add_pending.
  - apply (proj1 (NoDup_count_occ String.string_dec _) Hnodup').
Qed.

End Dedup.

(** Claim C5 as stated fails: enqueuing a key twice leaves no pending
    occurrence of it on a queue that has been shut down, where the add is
    a no-op, nor while the key is being processed, where it is only
    marked dirty. *)
Lemma enqueue_not_always_pending :
  count_occ String.string_dec
    (SpecQueue.pending
       (queue (enqueueAll Demo.keyFunc SpecQueue.Add ["default/web"; "default/web"]
                 (TaskQueue (SpecQueue.WorkQueue [] ∅ ∅ ∅ true) Open))))
    "default/web" = 0 /\
  count_occ String.string_dec
    (SpecQueue.pending
       (queue (enqueueAll Demo.keyFunc SpecQueue.Add ["default/web"; "default/web"]
                 (TaskQueue (SpecQueue.WorkQueue [] {["default/web"]} ∅ ∅ false) Open))))
    "default/web" = 0.
Proof.
  split.
  - reflexivity.
  - unfold enqueueAll, enqueue. simpl. unfold SpecQueue.Add. simpl.
    repeat (destruct (decide _) as [? | Hout]; [simpl | exfalso; apply Hout; set_solver]).
    reflexivity.
Qed.

(** Claim C5, amended, on the queue at creation: three objects with one
    key. *)
Lemma enqueue_deduplicates_witness :
  count_occ String.string_dec
    (SpecQueue.pending
       (queue (enqueueAll Demo.keyFunc SpecQueue.Add
                 ["default/web"; "default/web"; "default/web"]
                 (NewTaskQueue SpecQueue.empty))))
    "default/web" = 1.
Proof.
  apply (proj1 (enqueue_deduplicates string Demo.keyFunc
                  ["default/web"; "default/web"; "default/web"] "default/web"
                  (NewTaskQueue SpecQueue.empty) (NoDup_nil_2 (A := string)))).
  - reflexivity.
  - apply not_elem_of_empty.
  - discriminate.
  - repeat constructor.
Defined.

(** * Further properties *)

(** ** Exact and wildcard matches *)

Lemma labelsMatch_same (parts : list string) : labelsMatch parts parts.
Proof.
  split; [reflexivity|]. intros i pl hl Hpl Hhl. left. congruence.
Qed.

(** Two label sequences of one length that agree wherever both have a
    label are the same sequence. *)
Lemma labels_equal (pls hls : list string) :
  length pls = length hls ->
  (forall i pl hl, pls !! i = Some pl -> hls !! i = Some hl -> pl = hl) ->
  pls = hls.
Proof.
  intros Hlen Hall. apply list_eq. intros i.
  destruct (pls !! i) as [pl|] eqn:Hpl, (hls !! i) as [hl|] eqn:Hhl.
  - f_equal. eauto.
  - apply lookup_lt_Some in Hpl. apply lookup_ge_None in Hhl. lia.
  - apply lookup_lt_Some in Hhl. apply lookup_ge_None in Hpl. lia.
  - reflexivity.
Qed.

(** Strings with the same labels are the same string. *)
Lemma Split_injective (sep : ascii) (a b : string) : Split a sep = Split b sep -> a = b.
Proof.
  intros H. rewrite <- (Join_Split sep a), <- (Join_Split sep b). now rewrite H.
Qed.

(** Property X1: a pattern whose first label is not the wildcard matches a host
    exactly when the two are the same string once a trailing dot is
    stripped from each, and that string is not empty: the comparison is
    byte by byte, with no case folding and no other pattern syntax. *)
Theorem matchHostnames_exact (pattern host : string) :
  Split (TrimSuffix pattern ".") "." !! 0 <> Some "*" ->
  matchHostnames pattern host = Some true <->
  TrimSuffix pattern "." <> "" /\ TrimSuffix pattern "." = TrimSuffix host ".".
Proof.
  intros Hplain. rewrite matchHostnames_true. split.
  - intros (Hp & Hh & Hlen & Hall). split; [assumption|].
    apply (Split_injective "."). apply labels_equal; [assumption|].
    intros i pl hl Hpl Hhl. destruct (Hall i pl hl Hpl Hhl) as [? | [-> ->]]; [assumption|].
    contradiction.
  - intros [Hp Heq]. rewrite <- Heq. split; [assumption|]. split; [assumption|].
    apply labelsMatch_same.
Qed.

Lemma matchHostnames_exact_witness :
  matchHostnames "Example.com" "example.com" = Some true <->
  TrimSuffix "Example.com" "." <> "" /\ TrimSuffix "Example.com" "." = TrimSuffix "example.com" ".".
Proof.
  apply (matchHostnames_exact "Example.com" "example.com"). vm_compute. discriminate.
Defined.

(** Property X2: every host name matches itself as a pattern, unless it is empty once
    a trailing dot is stripped. *)
Theorem matchHostnames_reflexive (host : string) :
  matchHostnames host host = Some true <-> TrimSuffix host "." <> "".
Proof.
  rewrite matchHostnames_true. split; [tauto|].
  intros H. split; [assumption|]. split; [assumption|]. apply labelsMatch_same.
Qed.

(** A non-empty string keeps its last byte when a byte is put in front. *)
Lemma HasSuffix_dot_cons (c : ascii) (s : string) :
  s <> "" -> HasSuffix (String c s) "." = HasSuffix s ".".
Proof.
  intros Hne. destruct (HasSuffix s ".") eqn:E.
  - apply HasSuffix_true in E as [p ->]. apply HasSuffix_true.
    exists (String c p). now rewrite append_String.
  - destruct (HasSuffix (String c s) ".") eqn:E'; [|reflexivity].
    apply HasSuffix_true in E' as [p Hp]. destruct p as [|c' p].
    + rewrite append_empty in Hp. injection Hp as _ Hs. contradiction.
    + rewrite append_String in Hp. injection Hp as _ Hs.
      assert (HasSuffix s "." = true) by (apply HasSuffix_true; eauto). congruence.
Qed.

Lemma HasSuffix_dot_append (a d : string) :
  d <> "" -> HasSuffix (a +:+ d) "." = HasSuffix d ".".
Proof.
  intros Hne. induction a as [|c a IH]; [reflexivity|].
  rewrite append_String, HasSuffix_dot_cons; [exact IH|].
  destruct a; [now rewrite append_empty | now rewrite append_String].
Qed.

(** Property X3: the pattern ["*." ++ domain] matches exactly the hosts made of one
    label, a dot and [domain]: the label holds no dot, so the wildcard
    never spans two labels, but it may be empty, so that [".example.com"]
    matches ["*.example.com"]. *)
Theorem matchHostnames_wildcard (domain host : string) :
  domain <> "" -> HasSuffix domain "." = false ->
  matchHostnames ("*." +:+ domain) host = Some true <->
  exists label,
    Count label "." = 0 /\ TrimSuffix host "." = label +:+ "." +:+ domain.
Proof.
  intros Hne Hdot. rewrite matchHostnames_true.
  assert (TrimSuffix ("*." +:+ domain) "." = "*." +:+ domain) as ->.
  { apply TrimSuffix_none. now rewrite HasSuffix_dot_append. }
  assert (Split ("*." +:+ domain) "." = "*" :: Split domain ".") as ->
    by (apply (Split_append "." "*" domain); reflexivity).
  destruct (Split_nonempty "." domain) as [d [ds Hd]].
  split.
  - intros (_ & Hh & Hlen & Hall).
    pose proof (Join_Split "." (TrimSuffix host ".")) as Hjoin.
    pose proof (Split_parts "." (TrimSuffix host ".")) as Hfree.
    destruct (Split (TrimSuffix host ".") ".") as [|label rest]; [discriminate|].
    assert (Split domain "." = rest) as Hrest.
    { apply labels_equal; [simpl in Hlen; lia|].
      intros i pl hl Hpl Hhl.
      destruct (Hall (S i) pl hl Hpl Hhl) as [? | [? _]]; [assumption | lia]. }
    exists label. inversion Hfree; subst. split; [assumption|].
    rewrite <- Hjoin, Hd, Join_cons, <- Hd, Join_Split. reflexivity.
  - intros (label & Hlabel & Hhost). rewrite Hhost.
    change ("." +:+ domain) with (String "." domain).
    rewrite (Split_append "." label domain Hlabel).
    split; [discriminate|]. split.
    { destruct label; discriminate. }
    split; [reflexivity|].
    intros [|i] pl hl Hpl Hhl; simpl in *.
    + right. split; [reflexivity | congruence].
    + left. congruence.
Qed.

Lemma matchHostnames_wildcard_witness :
  matchHostnames ("*." +:+ "example.com") ".example.com" = Some true.
Proof.
  apply (matchHostnames_wildcard "example.com" ".example.com");
    [discriminate | reflexivity |].
  exists "". split; reflexivity.
Defined.

(** ** Lists of patterns *)

(** Property X5: a host is valid for two lists of patterns put together exactly when
    it is valid for one of them: patterns never cancel one another. *)
Theorem isHostValid_app (host : string) (cns1 cns2 : list string) :
  isHostValid host (cns1 ++ cns2) = Some true <->
  isHostValid host cns1 = Some true \/ isHostValid host cns2 = Some true.
Proof.
  rewrite !isHostValid_true. split.
  - intros (cn & Hin & Hm). apply in_app_or in Hin as [Hin | Hin]; eauto.
  - intros [(cn & Hin & Hm) | (cn & Hin & Hm)]; exists cn; (split; [|assumption]);
      apply in_or_app; auto.
Qed.

(** Property X6: a host that is itself among the patterns is valid, unless it is
    empty once a trailing dot is stripped. *)
Theorem isHostValid_listed (host : string) (cns : list string) :
  In host cns -> TrimSuffix host "." <> "" -> isHostValid host cns = Some true.
Proof.
  intros Hin Hne. apply isHostValid_true. exists host. split; [assumption|].
  apply matchHostnames_true. split; [assumption|]. split; [assumption|].
  apply labelsMatch_same.
Qed.

Lemma isHostValid_listed_witness :
  isHostValid "foo.example.com." ["bar.example.com"; "foo.example.com."] = Some true.
Proof.
  apply isHostValid_listed; [right; left; reflexivity | vm_compute; discriminate].
Defined.

(** ** What the worker does with each key *)

Section TaskQueueAccounts.

Variables (Q Obj W : Type).
Variable keyFunc : Obj -> string + error.
Variable Add : string -> Q -> Q.
Variable Get : Q -> option (got * Q).
Variable Done : string -> Q -> Q.
Variable ShutDown : Q -> Q.
Variable AddRateLimited : string -> Q -> Q.
Variable Forget : string -> Q -> Q.
Variable sync : string -> W -> option error * W.

Local Abbreviation exec_ := (exec Q Obj W keyFunc Add Get Done ShutDown AddRateLimited Forget sync).

(** An observation that only looks at the worker's events sees the same
    in the whole trace. *)
Lemma omap_worker_events {A : Type} (f : event Obj -> option A) (tr : list (event Obj)) :
  (forall e, is_worker_event e = false -> f e = None) ->
  omap f (worker_events tr) = omap f tr.
Proof.
  intros Hf. induction tr as [|e tr IH]; [reflexivity|].
  change (worker_events (e :: tr))
    with (if is_worker_event e then e :: worker_events tr else worker_events tr).
  change (omap f (e :: tr))
    with (match f e with Some a => a :: omap f tr | None => omap f tr end).
  destruct (is_worker_event e) eqn:He.
  - change (omap f (e :: worker_events tr))
      with (match f e with Some a => a :: omap f (worker_events tr)
                         | None => omap f (worker_events tr) end).
    now rewrite IH.
  - now rewrite (Hf e He), IH.
Qed.

(** In complete turns every key got is synced and marked done, every
    failure is requeued, every success forgotten, and nothing is closed. *)
Lemma turns_accounts (its : list (list (event Obj))) :
  Forall iteration its ->
  omap synced_key (concat its) = omap got_key (concat its) /\
  omap done_key (concat its) = omap got_key (concat its) /\
  omap requeued_key (concat its) = omap failed_key (concat its) /\
  omap forgotten_key (concat its) = omap succeeded_key (concat its) /\
  omap closing (concat its) = [] /\
  ~ In EvClosePanic (concat its).
Proof.
  induction 1 as [|it its Hit _ (IH1 & IH2 & IH3 & IH4 & IH5 & IH6)].
  - simpl. repeat split; try reflexivity. tauto.
  - simpl. rewrite !omap_app, IH1, IH2, IH3, IH4, IH5.
    destruct Hit; simpl; repeat split; try reflexivity;
      intros [? | [? | [? | [? | ?]]]]; try discriminate; contradiction.
Qed.

Ltac observe Htr :=
  repeat match goal with
  | |- context [omap ?f ?tr] =>
      lazymatch tr with
      | worker_events _ => fail
      | _ ++ _ => fail
      | concat _ => fail
      | _ => rewrite <- (omap_worker_events f tr) by (intros [] ?; (reflexivity || discriminate))
      end
  end;
  rewrite Htr, !omap_app.

(** Property X7: the callback is invoked once for every key handed out by [Get], in
    that order, and [Done] is called once for every such key, whatever
    the callback returned: at every moment the keys marked done are a
    prefix of the keys synced, which are a prefix of the keys got, and
    the three sequences are the same whenever the worker is at the head
    of its loop or has returned.  The keys requeued through the rate
    limiter are then exactly those whose sync failed, the keys forgotten
    exactly those whose sync succeeded. *)
Theorem worker_accounts_for_every_key
    (sched : list (action Q Obj W)) (s s' : system Q W) (tr : list (event Obj)) :
  wpc s = AtGet -> exec_ sched s = Some (tr, s') ->
  (omap done_key tr `prefix_of` omap synced_key tr /\
   omap synced_key tr `prefix_of` omap got_key tr /\
   omap requeued_key tr `prefix_of` omap failed_key tr /\
   omap forgotten_key tr `prefix_of` omap succeeded_key tr) /\
  (wpc s' = AtGet \/ wpc s' = Returned ->
   omap synced_key tr = omap got_key tr /\
   omap done_key tr = omap got_key tr /\
   omap requeued_key tr = omap failed_key tr /\
   omap forgotten_key tr = omap succeeded_key tr).
Proof.
  intros Hpc Hexec.
  destruct (history_exec Q Obj W keyFunc Add Get Done ShutDown AddRateLimited Forget sync
              sched s s' tr Hpc Hexec) as (its & part & Hits & Htr & Hpart).
  destruct (turns_accounts its Hits) as (E1 & E2 & E3 & E4 & _ & _).
  split.
  - observe Htr. rewrite E1, E2, E3, E4.
    destruct (wpc s') eqn:Hpc'; simpl in Hpart;
      repeat match goal with
             | H : exists _, _ |- _ => destruct H as [? H]
             | H : _ \/ _ |- _ => destruct H as [H | H]
             end; subst part; simpl;
      repeat split; apply prefix_app; (reflexivity || apply prefix_nil).
  - intros Hhead. observe Htr. rewrite E1, E2, E3, E4.
    destruct Hhead as [Hhead | Hhead]; rewrite Hhead in Hpart; simpl in Hpart;
      subst part; simpl; repeat split; reflexivity.
Qed.

End TaskQueueAccounts.

(** On the demonstration queue and schedule the one key got is the one
    key synced and the one key marked done. *)
Lemma worker_accounts_for_every_key_witness :
  omap synced_key Demo.trace = omap got_key Demo.trace /\
  omap done_key Demo.trace = omap got_key Demo.trace.
Proof.
  pose proof (worker_accounts_for_every_key Demo.fifo string nat Demo.keyFunc Demo.Add
                Demo.Get Demo.Done Demo.ShutDown Demo.AddRateLimited Demo.Forget
                Demo.sync Demo.schedule (started ([], false) 0) Demo.final Demo.trace
                eq_refl ltac:(vm_compute; reflexivity)) as [_ H].
  destruct (H (or_intror eq_refl)) as (H1 & H2 & _). exact (conj H1 H2).
Defined.

(** ** One close, no panic *)

Section TaskQueueCloses.

Variables (Q Obj W : Type).
Variable keyFunc : Obj -> string + error.
Variable Add : string -> Q -> Q.
Variable Get : Q -> option (got * Q).
Variable Done : string -> Q -> Q.
Variable ShutDown : Q -> Q.
Variable AddRateLimited : string -> Q -> Q.
Variable Forget : string -> Q -> Q.
Variable sync : string -> W -> option error * W.

Local Abbreviation exec_ := (exec Q Obj W keyFunc Add Get Done ShutDown AddRateLimited Forget sync).

(** Property X8: on a fresh task queue with its one worker, whatever the queue, the
    callback and the other goroutines do, the worker never panics: it
    closes [workerDone] at most once and never closes it when it is
    already closed. *)
Theorem worker_closes_at_most_once
    (newQueue : Q) (w : W) (sched : list (action Q Obj W))
    (tr : list (event Obj)) (s : system Q W) :
  exec_ sched (started newQueue w) = Some (tr, s) ->
  wpc s <> Panicked /\ ~ In EvClosePanic tr /\ length (omap closing tr) <= 1.
Proof.
  intros Hexec.
  pose proof (exec_invariant Q Obj W keyFunc Add Get Done ShutDown AddRateLimited Forget sync
                handshake
                (handshake_step Q Obj W keyFunc Add Get Done ShutDown AddRateLimited Forget sync)
                sched [] _ tr s (handshake_started Q Obj W newQueue w) Hexec)
    as (_ & Hpanic & _).
  simpl in Hpanic.
  destruct (history_exec Q Obj W keyFunc Add Get Done ShutDown AddRateLimited Forget sync
              sched (started newQueue w) s tr eq_refl Hexec)
    as (its & part & Hits & Htr & Hpart).
  destruct (turns_accounts Obj its Hits) as (_ & _ & _ & _ & Hclose & Hnopanic).
  split; [assumption|]. split.
  - intros Hin.
    assert (In EvClosePanic (worker_events tr)) as Hin'
      by (apply List.filter_In; split; [assumption | reflexivity]).
    rewrite Htr in Hin'. apply in_app_or in Hin' as [Hin' | Hin']; [contradiction|].
    destruct (wpc s); simpl in Hpart;
      repeat match goal with
             | H : exists _, _ |- _ => destruct H as [? H]
             | H : _ \/ _ |- _ => destruct H as [H | H]
             end; subst part; simpl in Hin';
      repeat (destruct Hin' as [Hin' | Hin']; try discriminate); try contradiction.
  - rewrite <- (omap_worker_events Obj closing tr) by (intros [] ?; (reflexivity || discriminate)).
    rewrite Htr, omap_app, Hclose.
    destruct (wpc s); simpl in Hpart;
      repeat match goal with
             | H : exists _, _ |- _ => destruct H as [? H]
             | H : _ \/ _ |- _ => destruct H as [H | H]
             end; subst part; simpl; lia.
Qed.

End TaskQueueCloses.

Lemma worker_closes_at_most_once_witness :
  wpc Demo.final <> Panicked /\ ~ In EvClosePanic Demo.trace /\
  length (omap closing Demo.trace) <= 1.
Proof.
  apply (worker_closes_at_most_once Demo.fifo string nat Demo.keyFunc Demo.Add
           Demo.Get Demo.Done Demo.ShutDown Demo.AddRateLimited Demo.Forget
           Demo.sync ([], false) 0 Demo.schedule Demo.trace Demo.final).
  vm_compute. reflexivity.
Defined.

(** ** The default upstream *)

Section DefaultUpstreamFacts.

Variables (Upstream UpstreamServer : Type).
Variable Backends : Upstream -> list UpstreamServer.
Variables (Address Port : UpstreamServer -> string).

(** Property X9: [isDefaultUpstream] never panics, on a nil upstream or on one without
    backends either, and it answers true exactly for an upstream whose
    first backend is 127.0.0.1:8181; the backends after the first play no
    part. *)
Theorem isDefaultUpstream_first_backend (ups : option Upstream) :
  (isDefaultUpstream Backends Address Port ups = Some true <->
   exists u backend others,
     ups = Some u /\ Backends u = backend :: others /\
     Address backend = "127.0.0.1" /\ Port backend = "8181") /\
  (isDefaultUpstream Backends Address Port ups <> Some true ->
   isDefaultUpstream Backends Address Port ups = Some false).
Proof.
  unfold isDefaultUpstream. destruct ups as [u|].
  2: { split; [|reflexivity]. split; [discriminate|]. intros (? & ? & ? & ? & _). discriminate. }
  destruct (Backends u) as [|backend others] eqn:Hb; simpl.
  { split; [|reflexivity]. split; [discriminate|]. intros (? & ? & ? & ? & ? & _).
    simplify_eq. congruence. }
  split.
  - split.
    + intros H. injection H as H. apply andb_true_iff in H as [Ha Hp].
      apply String.eqb_eq in Ha, Hp. exists u, backend, others. auto.
    + intros (u' & b' & o' & Hu & Hb' & Ha & Hp). simplify_eq.
      rewrite Hb in Hb'. simplify_eq. rewrite Ha, Hp. reflexivity.
  - intros H. destruct (String.eqb (Address backend) "127.0.0.1" && String.eqb (Port backend) "8181");
      [congruence | reflexivity].
Qed.

End DefaultUpstreamFacts.

(** ** Patterns used as hosts *)

(** Property X4: matching composes: when [pattern] matches the name [middle] and
    [middle], read as a pattern, matches [host], then [pattern] matches
    [host].  So a wildcard pattern that covers another pattern covers
    every host that one covers. *)
Theorem matchHostnames_transitive (pattern middle host : string) :
  matchHostnames pattern middle = Some true ->
  matchHostnames middle host = Some true ->
  matchHostnames pattern host = Some true.
Proof.
  rewrite !matchHostnames_true.
  intros (Hp & _ & Hlen1 & Hall1) (_ & Hh & Hlen2 & Hall2).
  split; [assumption|]. split; [assumption|]. split; [congruence|].
  intros i pl hl Hpl Hhl.
  destruct (lookup_lt_is_Some_2 (Split (TrimSuffix middle ".") ".") i) as [ml Hml].
  { rewrite <- Hlen1. eapply lookup_lt_Some; eauto. }
  destruct (Hall1 i pl ml Hpl Hml) as [-> | ?]; [|now right].
  destruct (Hall2 i ml hl Hml Hhl) as [-> | ?]; [now left | now right].
Qed.

Lemma matchHostnames_transitive_witness :
  matchHostnames "*.example.com" "foo.example.com." = Some true.
Proof.
  apply (matchHostnames_transitive "*.example.com" "*.example.com." "foo.example.com.");
    reflexivity.
Defined.
